(** * Verification of the dab transaction engine (src/transaction, src/input, src/main.rs)

    Amounts are [f64] in the source.  The engine is written once over an
    amount interface [AmountOps] (zero, [+], [-] and the test [x >= 0.0]) and
    instantiated at the binary64 primitive floats of Rocq ([PrimFloat.float],
    IEEE 754 round-to-nearest, the arithmetic of Rust's [f64]) and at [Z],
    an exact arithmetic used to state what holds without rounding. *)

From Stdlib Require Import ZArith Lia Floats.
From stdpp Require Import base gmap list.

(* ------------------------------------------------------------------ *)
(** ** Amounts *)

Class AmountOps (A : Type) := {
  amount_zero : A;                 (* Default::default() *)
  amount_add : A -> A -> A;        (* a + b *)
  amount_sub : A -> A -> A;        (* a - b *)
  amount_ge0 : A -> bool           (* a >= 0.0 *)
}.

(** Rust's [f64]: IEEE binary64.  [a >= 0.0] is false for NaN, as
    [PrimFloat.leb] is. *)
#[global] Instance f64_ops : AmountOps float := {
  amount_zero := 0%float;
  amount_add := PrimFloat.add;
  amount_sub := PrimFloat.sub;
  amount_ge0 := fun a => PrimFloat.leb 0%float a
}.

(** Exact arithmetic on integer amounts (e.g. counted in a minor unit). *)
#[global] Instance Z_ops : AmountOps Z := {
  amount_zero := 0%Z;
  amount_add := Z.add;
  amount_sub := Z.sub;
  amount_ge0 := fun a => Z.leb 0 a
}.

(* ------------------------------------------------------------------ *)
(** ** Data model (src/transaction/mod.rs) *)

(** [ClientId(u16)] and [TransactionId(u32)], as their numeric value. *)
Definition ClientId := N.
Definition TransactionId := N.

Section Engine.
Context {A : Type} `{AmountOps A}.

Inductive TransactionOperation :=
  | Deposit (amount : A)
  | Withdrawal (amount : A)
  | Dispute
  | Resolve
  | Chargeback.

Record Transaction := {
  client : ClientId;
  id : TransactionId;
  operation : TransactionOperation
}.

Record Account := {
  acc_client : ClientId;
  acc_available : A;
  acc_held : A;
  acc_total : A;
  acc_locked : bool
}.

(* ------------------------------------------------------------------ *)
(** ** The engine (src/transaction/engine.rs) *)

Record TransactionEntry := {
  te_amount : A;
  te_disputed : bool
}.

Record ClientEntry := {
  ce_id : ClientId;
  available : A;
  held : A;
  total : A;
  locked : bool;
  transactions : gmap TransactionId TransactionEntry
}.

(** [ClientEntry::new] *)
Definition ClientEntry_new (cid : ClientId) : ClientEntry :=
  {| ce_id := cid; available := amount_zero; held := amount_zero;
     total := amount_zero; locked := false; transactions := ∅ |}.

(** [ClientEntry::as_account] *)
Definition as_account (e : ClientEntry) : Account :=
  {| acc_client := ce_id e; acc_available := available e; acc_held := held e;
     acc_total := total e; acc_locked := locked e |}.

Definition set_balances (e : ClientEntry) (a h t : A) (l : bool)
    (txs : gmap TransactionId TransactionEntry) : ClientEntry :=
  {| ce_id := ce_id e; available := a; held := h; total := t; locked := l;
     transactions := txs |}.

(** [ClientEntry::apply], the mutation of [self]; the returned [Account] is
    [as_account] of the result (see [apply]). *)
Definition apply_entry (e : ClientEntry) (t : Transaction) : ClientEntry :=
  let tid := id t in
  let txs := transactions e in
  match operation t with
  | Deposit amount =>
      match txs !! tid with
      | None =>
          set_balances e (amount_add (available e) amount) (held e)
            (amount_add (total e) amount) (locked e)
            (<[tid := {| te_amount := amount; te_disputed := false |}]> txs)
      | Some _ => e
      end
  | Withdrawal amount =>
      match txs !! tid with
      | None =>
          let avail := amount_sub (available e) amount in
          let txs' := <[tid := {| te_amount := amount; te_disputed := false |}]> txs in
          if amount_ge0 avail then
            set_balances e avail (held e) (amount_sub (total e) amount) (locked e) txs'
          else
            set_balances e (available e) (held e) (total e) (locked e) txs'
      | Some _ => e
      end
  | Dispute =>
      match txs !! tid with
      | Some dtx =>
          if negb (te_disputed dtx) then
            set_balances e (amount_sub (available e) (te_amount dtx))
              (amount_add (held e) (te_amount dtx)) (total e) (locked e)
              (<[tid := {| te_amount := te_amount dtx; te_disputed := true |}]> txs)
          else e
      | None => e
      end
  | Resolve =>
      match txs !! tid with
      | Some dtx =>
          if te_disputed dtx then
            set_balances e (amount_add (available e) (te_amount dtx))
              (amount_sub (held e) (te_amount dtx)) (total e) (locked e)
              (<[tid := {| te_amount := te_amount dtx; te_disputed := false |}]> txs)
          else e
      | None => e
      end
  | Chargeback =>
      match txs !! tid with
      | Some dtx =>
          if te_disputed dtx then
            set_balances e (available e) (amount_sub (held e) (te_amount dtx))
              (amount_sub (total e) (te_amount dtx)) true txs
          else e
      | None => e
      end
  end.

(** [ClientEntry::apply]: new state of the entry and the returned account. *)
Definition apply (e : ClientEntry) (t : Transaction) : ClientEntry * Account :=
  let e' := apply_entry e t in (e', as_account e').

(** [TransactionEngine] *)
Definition Engine := gmap ClientId ClientEntry.

Definition TransactionEngine_new : Engine := ∅.

(** [TransactionEngine::process]: a deposit looks up the client's entry with
    [entry(..).or_insert_with_key(ClientEntry::new)], every other operation
    with [get_mut]; the entry, when there is one, is updated in place. *)
Definition process (eng : Engine) (t : Transaction) : Engine * option Account :=
  let entry :=
    match operation t with
    | Deposit _ => Some (default (ClientEntry_new (client t)) (eng !! client t))
    | _ => eng !! client t
    end in
  match entry with
  | Some e =>
      let '(e', acc) := apply e t in (<[client t := e']> eng, Some acc)
  | None => (eng, None)
  end.

(** [TransactionEngine::accounts] (the order of a HashMap is unspecified). *)
Definition accounts (eng : Engine) : list Account :=
  as_account <$> (map_to_list eng).*2.

(** Processing a sequence of transactions in order. *)
Fixpoint process_all (eng : Engine) (ts : list Transaction) : Engine :=
  match ts with
  | [] => eng
  | t :: ts' => process_all (process eng t).1 ts'
  end.

End Engine.

Arguments TransactionOperation A : clear implicits.
Arguments Transaction A : clear implicits.
Arguments Account A : clear implicits.
Arguments TransactionEntry A : clear implicits.
Arguments ClientEntry A : clear implicits.
Arguments Engine A : clear implicits.

Definition tx {A} (c : ClientId) (i : TransactionId) (op : TransactionOperation A)
  : Transaction A := {| client := c; id := i; operation := op |}.
Arguments tx {A} c%_N i%_N op.

(** The concrete instance: the engine of the program, on [f64]. *)
Definition run_f64 (ts : list (Transaction float)) : Engine float :=
  process_all TransactionEngine_new ts.

(** Entries of one client, transactions applied in order. *)
Definition apply_all {A} `{AmountOps A} (e : ClientEntry A) (ts : list (Transaction A))
  : ClientEntry A := fold_left apply_entry ts e.

(** [e] with [locked] replaced. *)
Definition with_locked {A} (e : ClientEntry A) (l : bool) : ClientEntry A :=
  {| ce_id := ce_id e; available := available e; held := held e; total := total e;
     locked := l; transactions := transactions e |}.

(** An entry reached from a fresh account by the deposit of 100 (tx 1). *)
Definition bob_after_deposit : ClientEntry float :=
  Eval vm_compute in
    default (ClientEntry_new 1%N) (run_f64 [tx 1 1 (Deposit 100%float)] !! 1%N).

Definition is_deposit_or_withdrawal {A} (op : TransactionOperation A) : bool :=
  match op with Deposit _ | Withdrawal _ => true | _ => false end.

(** An entry of the exact instance, after the deposit of 100 (tx 1). *)
Definition Z_after_deposit : ClientEntry Z :=
  Eval vm_compute in
    default (ClientEntry_new 1%N)
      (process_all TransactionEngine_new [tx 1 1 (Deposit 100%Z)] !! 1%N).

(** [total == available + held], in the exact instance. *)
Definition balanced (e : ClientEntry Z) : Prop := total e = (available e + held e)%Z.

(** [available >= 0] and no record is under dispute. *)
Definition nonneg_available {A} `{AmountOps A} (e : ClientEntry A) : Prop :=
  amount_ge0 (available e) = true /\
  (forall i r, transactions e !! i = Some r -> te_disputed r = false).

(** A transaction other than a dispute, whose deposit amount, if any, is [>= 0]. *)
Definition no_dispute_nonneg_deposit {A} `{AmountOps A} (t : Transaction A) : Prop :=
  operation t <> Dispute /\ forall x, operation t = Deposit x -> amount_ge0 x = true.

(** Every entry of an engine satisfies [P]. *)
Definition all_entries {A} (P : ClientEntry A -> Prop) (eng : Engine A) : Prop :=
  forall c e, eng !! c = Some e -> P e.

(* ------------------------------------------------------------------ *)
(** ** Input and the main loop (src/input, src/main.rs) *)

(** [anyhow::Error] of the run, by origin. *)
Inductive Error :=
  | UsageError                           (* missing positional argument *)
  | IoError                              (* CsvReader::new: the file cannot be opened *)
  | CsvError (n : N)                     (* csv::Error of a record (read or parse) *)
  | MissingAmount (deposit : bool)       (* try_into: deposit / withdrawal without amount *)
  | WriteError.                          (* Writer::write *)

Inductive result (T : Type) :=
  | Ok (v : T)
  | Err (e : Error).
Arguments Ok {T} v.
Arguments Err {T} e.

(** [input::csv::TransactionType] *)
Inductive TransactionType := TDeposit | TWithdrawal | TDispute | TResolve | TChargeback.

(** [input::csv::CsvTransactionRecord] *)
Record CsvTransactionRecord := {
  r_type : TransactionType;
  r_client : N;
  r_tx : N;
  r_amount : option float
}.

(** [TryInto<Transaction> for CsvTransactionRecord] *)
Definition try_into (r : CsvTransactionRecord) : result (Transaction float) :=
  let mk op := Ok {| client := r_client r; id := r_tx r; operation := op |} in
  match r_type r with
  | TDeposit =>
      match r_amount r with Some a => mk (Deposit a) | None => Err (MissingAmount true) end
  | TWithdrawal =>
      match r_amount r with Some a => mk (Withdrawal a) | None => Err (MissingAmount false) end
  | TDispute => mk Dispute
  | TResolve => mk Resolve
  | TChargeback => mk Chargeback
  end.

(** [input::read]: every record of the reader, converted. *)
Definition read (records : list (result CsvTransactionRecord)) : list (result (Transaction float)) :=
  map (fun record => match record with Ok r => try_into r | Err e => Err e end) records.

(** The loop of [main]: [let transaction = transaction?; engine.process(transaction);].
    Returns the engine reached and whether the loop ended normally. *)
Fixpoint main_loop (engine : Engine float) (transactions : list (result (Transaction float)))
  : Engine float * result unit :=
  match transactions with
  | [] => (engine, Ok tt)
  | Ok t :: rest => main_loop (process engine t).1 rest
  | Err e :: _ => (engine, Err e)
  end.

(** [for account in engine.accounts() { writer.write(account)?; }] *)
Fixpoint write_all (write : Account float -> result unit) (accs : list (Account float))
  : result unit :=
  match accs with
  | [] => Ok tt
  | a :: rest => match write a with Ok _ => write_all write rest | Err e => Err e end
  end.

(** [main], with the file system and standard output as parameters: [open_csv]
    is [input::read_csv]'s [CsvReader::new] on the path, yielding the records;
    [write] is [CsvWriter::write] (whose construction cannot fail). *)
Definition main {Path : Type} (arg : option Path)
    (open_csv : Path -> result (list (result CsvTransactionRecord)))
    (write : Account float -> result unit) : result unit :=
  match arg with
  | None => Err UsageError
  | Some transactions_file =>
      match open_csv transactions_file with
      | Err e => Err e
      | Ok records =>
          let '(engine, r) := main_loop TransactionEngine_new (read records) in
          match r with
          | Err e => Err e
          | Ok _ => write_all write (accounts engine)
          end
      end
  end.

(** An account locked by a chargeback: deposit 100 (tx 1), dispute and
    chargeback of tx 1. *)
Definition bob_locked : ClientEntry float :=
  Eval vm_compute in
    default (ClientEntry_new 1%N)
      (run_f64 [tx 1 1 (Deposit 100%float); tx 1 1 Dispute; tx 1 1 Chargeback] !! 1%N).

(** The balances and flag of a client's account after a run. *)
Definition balances_of (ts : list (Transaction float)) (c : ClientId)
  : option (float * float * float * bool) :=
  option_map (fun e => (available e, held e, total e, locked e)) (run_f64 ts !! c).

(** Whether an operation is a deposit (the operations that create accounts). *)
Definition is_deposit {A} (op : TransactionOperation A) : bool :=
  match op with Deposit _ => true | _ => false end.

(** What [process] does to the client's slot of the engine map: the new
    value of [clients[client]], from its old value. *)
Definition process_entry {A} `{AmountOps A} (t : Transaction A)
    (o : option (ClientEntry A)) : option (ClientEntry A) :=
  match operation t with
  | Deposit _ => Some (apply_entry (default (ClientEntry_new (client t)) o) t)
  | _ => (fun e => apply_entry e t) <$> o
  end.

(** Every entry is stored under its own client id. *)
Definition keys_match {A} (eng : Engine A) : Prop :=
  forall c e, eng !! c = Some e -> ce_id e = c.

(* ------------------------------------------------------------------ *)
(** ** Tests of the model against the scenarios of the repository *)

Example scenario_d_f64 :
  option_map (fun e => (available e, total e))
    (run_f64 [tx 1 1 (Deposit 100%float); tx 1 2 (Withdrawal 200%float)] !! 1%N)
  = Some (100%float, 100%float).
Proof. vm_compute. reflexivity. Qed.

Example scenario_c_f64 :
  option_map (fun e => (available e, held e, total e))
    (run_f64 [tx 1 1 (Deposit 100%float); tx 1 2 (Withdrawal 50%float)] !! 1%N)
  = Some (50%float, 0%float, 50%float).
Proof. vm_compute. reflexivity. Qed.

(* ------------------------------------------------------------------ *)
(** ** Lemmas *)

(** IEEE: [y < 0.0] excludes [y >= 0.0]. *)
Lemma f64_lt0_not_ge0 (y : float) : (y <? 0)%float = true -> (0 <=? y)%float = false.
Proof.
  rewrite ltb_spec, leb_spec. change (Prim2SF 0) with (S754_zero false).
  unfold SFltb, SFleb. destruct (Prim2SF y) as [[]|[]| |[] m ex]; simpl; congruence.
Qed.

Section Generic.
Context {A : Type} `{AmountOps A}.

Lemma apply_entry_ce_id (e : ClientEntry A) t : ce_id (apply_entry e t) = ce_id e.
Proof.
  unfold apply_entry. destruct (operation t), (transactions e !! id t) as [[]|];
    repeat (case_match; try reflexivity); reflexivity.
Qed.

Lemma apply_entry_replay (e : ClientEntry A) t :
  is_deposit_or_withdrawal (operation t) = true ->
  is_Some (transactions e !! id t) -> apply_entry e t = e.
Proof.
  intros Hop [r Hr]. unfold apply_entry. rewrite Hr.
  destruct (operation t); simpl in Hop; congruence.
Qed.

(** Records are never removed and their amount never changes. *)
Lemma apply_entry_record_amount (e : ClientEntry A) t i x d :
  transactions e !! i = Some {| te_amount := x; te_disputed := d |} ->
  exists d', transactions (apply_entry e t) !! i = Some {| te_amount := x; te_disputed := d' |}.
Proof.
  intros Hi. unfold apply_entry.
  destruct (decide (id t = i)) as [<-|Hne].
  - rewrite Hi. destruct (operation t); simpl;
      repeat case_match; simpl; eauto; rewrite lookup_insert_eq; eauto.
  - destruct (operation t), (transactions e !! id t);
      repeat case_match; simpl; eauto; rewrite lookup_insert_ne by done; eauto.
Qed.

Lemma apply_all_record_amount (e : ClientEntry A) ts i x d :
  transactions e !! i = Some {| te_amount := x; te_disputed := d |} ->
  exists d', transactions (apply_all e ts) !! i = Some {| te_amount := x; te_disputed := d' |}.
Proof.
  revert e d. induction ts as [|t ts IH]; intros e d Hi; simpl; [eauto|].
  destruct (apply_entry_record_amount e t i x d Hi) as [d' Hd'].
  exact (IH _ _ Hd').
Qed.

Lemma process_existing (eng : Engine A) t e :
  eng !! client t = Some e ->
  process eng t = (<[client t := apply_entry e t]> eng, Some (as_account (apply_entry e t))).
Proof.
  intros He. unfold process. rewrite He. destruct (operation t); reflexivity.
Qed.

Lemma all_entries_empty (P : ClientEntry A -> Prop) : all_entries P TransactionEngine_new.
Proof.
  intros c e Hl. unfold TransactionEngine_new, Engine in *.
  rewrite lookup_empty in Hl. discriminate.
Qed.

Lemma all_entries_insert (P : ClientEntry A -> Prop) (eng : Engine A) c e :
  all_entries P eng -> P e -> all_entries P (<[c := e]> eng).
Proof.
  intros Hall He c' e' Hl. unfold Engine in *.
  destruct (decide (c = c')) as [<-|Hne].
  - rewrite lookup_insert_eq in Hl. congruence.
  - rewrite lookup_insert_ne in Hl by done. eauto.
Qed.

Section Invariant.
Variable P : ClientEntry A -> Prop.
Variable Q : Transaction A -> Prop.
Hypothesis P_new : forall c, P (ClientEntry_new c).
Hypothesis P_step : forall e t, Q t -> P e -> P (apply_entry e t).

Lemma process_entries (eng : Engine A) t :
  Q t -> all_entries P eng ->
  all_entries P (process eng t).1 /\
  (forall acc, (process eng t).2 = Some acc -> exists e, P e /\ acc = as_account e).
Proof.
  intros Hq Hall. destruct (eng !! client t) as [e|] eqn:He.
  - rewrite (process_existing eng t e He). simpl.
    assert (P (apply_entry e t)) by eauto.
    split; [by apply all_entries_insert|]. intros acc [= <-]. eauto.
  - unfold process. rewrite He. destruct (operation t) eqn:Hop; simpl;
      try (split; [exact Hall | discriminate]).
    assert (P (apply_entry (ClientEntry_new (client t)) t)) by eauto.
    split; [by apply all_entries_insert|]. intros acc [= <-]. eauto.
Qed.

Lemma process_all_entries (ts : list (Transaction A)) (eng : Engine A) :
  Forall Q ts -> all_entries P eng -> all_entries P (process_all eng ts).
Proof.
  revert eng. induction ts as [|t ts IH]; intros eng Hq Hall; simpl; [done|].
  inversion Hq; subst. apply IH; [done|]. apply process_entries; done.
Qed.

End Invariant.

Lemma insert_fresh_record_not_disputed (e : ClientEntry A) (i : TransactionId) (x : A) :
  (forall j r, transactions e !! j = Some r -> te_disputed r = false) ->
  forall j r, <[i := {| te_amount := x; te_disputed := false |}]> (transactions e) !! j = Some r ->
  te_disputed r = false.
Proof.
  intros Hrec j r Hr. destruct (decide (i = j)) as [<-|Hne].
  - rewrite lookup_insert_eq in Hr. injection Hr as <-. reflexivity.
  - rewrite lookup_insert_ne in Hr by done. eauto.
Qed.

Lemma nonneg_available_step :
  (forall a x, amount_ge0 a = true -> amount_ge0 x = true -> amount_ge0 (amount_add a x) = true) ->
  forall (e : ClientEntry A) t,
  no_dispute_nonneg_deposit t -> nonneg_available e -> nonneg_available (apply_entry e t).
Proof.
  intros Hadd e t [Hnd Hdep] [Ha Hrec]. unfold apply_entry.
  destruct (operation t) as [x|x| | |] eqn:Hop.
  - destruct (transactions e !! id t); [split; assumption|].
    split; simpl; [apply Hadd; eauto|]. by apply insert_fresh_record_not_disputed.
  - destruct (transactions e !! id t); [split; assumption|].
    destruct (amount_ge0 (amount_sub (available e) x)) eqn:Hg;
      (split; simpl; [assumption|]); by apply insert_fresh_record_not_disputed.
  - congruence.
  - destruct (transactions e !! id t) as [dtx|] eqn:Hl; [|split; assumption].
    rewrite (Hrec _ _ Hl). split; assumption.
  - destruct (transactions e !! id t) as [dtx|] eqn:Hl; [|split; assumption].
    rewrite (Hrec _ _ Hl). split; assumption.
Qed.

Lemma process_fst (eng : Engine A) t :
  (process eng t).1 = partial_alter (process_entry t) (client t) eng.
Proof.
  unfold process, process_entry.
  destruct (eng !! client t) as [e|] eqn:He, (operation t); simpl;
    unfold Engine in *; apply map_eq; intros j; rewrite lookup_partial_alter;
    (destruct (decide (client t = j)) as [<-|Hne];
     [rewrite ?lookup_insert_eq; simpl; rewrite He; reflexivity
     | rewrite ?lookup_insert_ne by done; reflexivity]).
Qed.

Lemma process_lookup_ne (eng : Engine A) t c :
  client t <> c -> (process eng t).1 !! c = eng !! c.
Proof.
  intros Hne. rewrite process_fst. unfold Engine in *.
  rewrite lookup_partial_alter. case_decide; [contradiction|reflexivity].
Qed.

Lemma process_snd_same (eng eng' : Engine A) t :
  eng !! client t = eng' !! client t -> (process eng t).2 = (process eng' t).2.
Proof.
  intros He. unfold process. rewrite He.
  destruct (operation t), (eng' !! client t); reflexivity.
Qed.

Lemma process_dom (eng : Engine A) t c :
  is_Some ((process eng t).1 !! c) <->
  is_Some (eng !! c) \/ (client t = c /\ is_deposit (operation t) = true).
Proof.
  rewrite process_fst. unfold Engine in *. rewrite lookup_partial_alter.
  unfold process_entry. case_decide as Hc.
  - subst c. destruct (operation t), (eng !! client t); simpl; unfold is_Some; naive_solver.
  - split; [intros ?; left; done|]. intros [?|[? _]]; [done|contradiction].
Qed.

Lemma keys_match_process (eng : Engine A) t :
  keys_match eng -> keys_match (process eng t).1.
Proof.
  intros Hk c e. rewrite process_fst. unfold Engine in *. rewrite lookup_partial_alter.
  unfold process_entry. case_decide as Hc; [|apply Hk]. subst c.
  destruct (operation t), (eng !! client t) as [e0|] eqn:He; simpl; intros Hs;
    try discriminate; injection Hs as <-; rewrite apply_entry_ce_id;
    first [exact (Hk _ _ He) | reflexivity].
Qed.

Lemma keys_match_process_all (eng : Engine A) ts :
  keys_match eng -> keys_match (process_all eng ts).
Proof.
  revert eng. induction ts as [|t ts IH]; intros eng Hk; simpl; [done|].
  apply IH, keys_match_process, Hk.
Qed.

Lemma keys_match_empty : keys_match (TransactionEngine_new (A := A)).
Proof.
  intros c e He. unfold TransactionEngine_new, Engine in *.
  rewrite lookup_empty in He. discriminate.
Qed.

Lemma apply_entry_locked (e : ClientEntry A) t :
  locked e = true -> locked (apply_entry e t) = true.
Proof.
  intros Hl. unfold apply_entry.
  destruct (operation t), (transactions e !! id t); repeat case_match; simpl; auto.
Qed.

Lemma process_all_dom (eng : Engine A) ts c :
  is_Some (process_all eng ts !! c) <->
  is_Some (eng !! c) \/ exists t, t ∈ ts /\ client t = c /\ is_deposit (operation t) = true.
Proof.
  revert eng. induction ts as [|t ts IH]; intros eng; simpl.
  - split; [intros ?; left; done|]. intros [?|(t & Ht & _)]; [done|]. inversion Ht.
  - rewrite IH, process_dom. split.
    + intros [[?|?]|(t' & ? & ?)]; [left; done|right; exists t; split; [left|]; done|].
      right. exists t'. split; [right|]; done.
    + intros [?|(t' & Ht' & ?)]; [left; left; done|].
      inversion Ht' as [|? ? ? Hin]; subst; [left; right; done|].
      right. exists t'. done.
Qed.

Lemma accounts_clients (l : list (ClientId * ClientEntry A)) :
  Forall (fun p => ce_id p.2 = p.1) l ->
  acc_client <$> (as_account <$> l.*2) = l.*1.
Proof.
  induction l as [|[k e] l IH]; intros Hl; simpl; [reflexivity|].
  inversion Hl as [|? ? Hk Hrest]; subst. simpl in Hk. f_equal; [exact Hk|]. apply IH, Hrest.
Qed.

End Generic.


Lemma main_loop_prefix (eng : Engine float) (ts : list (Transaction float)) rest :
  main_loop eng (map Ok ts ++ rest) = main_loop (process_all eng ts) rest.
Proof.
  revert eng. induction ts as [|t ts IH]; intros eng; simpl; [reflexivity|]. apply IH.
Qed.

(** A sequence of results converts entirely or has a first error. *)
Lemma results_first_error {T} (xs : list (result T)) :
  (exists ts, xs = map Ok ts) \/ (exists ts e rest, xs = map Ok ts ++ Err e :: rest).
Proof.
  induction xs as [|[v|e] xs IH].
  - left. exists []. reflexivity.
  - destruct IH as [[ts ->]|(ts & e & rest & ->)].
    + left. exists (v :: ts). reflexivity.
    + right. exists (v :: ts), e, rest. reflexivity.
  - right. exists [], e, xs. reflexivity.
Qed.


Lemma main_loop_all_ok (eng : Engine float) (ts : list (Transaction float)) :
  main_loop eng (map Ok ts) = (process_all eng ts, Ok tt).
Proof. rewrite <- (app_nil_r (map Ok ts)), main_loop_prefix. reflexivity. Qed.

Lemma map_Ok_inj {T} (ts ts' : list T) : map Ok ts = map Ok ts' -> ts = ts'.
Proof.
  revert ts'. induction ts as [|t ts IH]; intros [|t' ts'] Heq; simpl in Heq;
    try discriminate; [reflexivity|]. injection Heq as -> Heq. f_equal. apply IH, Heq.
Qed.

Lemma map_Ok_no_Err {T} (ts : list T) e : ~ In (Err e) (map Ok ts).
Proof. intros Hin. apply in_map_iff in Hin as (t & Ht & _). discriminate. Qed.

Lemma write_all_ok (write : Account float -> result unit) accs :
  write_all write accs = Ok tt <-> Forall (fun a => write a = Ok tt) accs.
Proof.
  induction accs as [|a accs IH]; simpl.
  - split; [constructor|reflexivity].
  - destruct (write a) as [[]|e] eqn:Hw.
    + rewrite IH. split; [intros; constructor; done|]. intros Hf. inversion Hf. done.
    + split; [discriminate|]. intros Hf. inversion Hf. congruence.
Qed.

Lemma write_all_err (write : Account float -> result unit) accs e :
  write_all write accs = Err e <->
  exists pre a post, accs = pre ++ a :: post /\
    Forall (fun a => write a = Ok tt) pre /\ write a = Err e.
Proof.
  induction accs as [|b accs IH]; simpl.
  - split; [discriminate|]. intros ([|? ?] & ? & ? & Hl & _); discriminate.
  - destruct (write b) as [[]|e0] eqn:Hw.
    + rewrite IH. split.
      * intros (pre & a & post & -> & Hf & Ha). exists (b :: pre), a, post.
        split; [reflexivity|]. split; [constructor; done|done].
      * intros ([|c pre] & a & post & Hl & Hf & Ha); simpl in Hl; injection Hl as <- Hl;
          [congruence|]. inversion Hf. exists pre, a, post. done.
    + split.
      * intros [= <-]. exists [], b, accs. split; [reflexivity|]. split; [constructor|done].
      * intros ([|c pre] & a & post & Hl & Hf & Ha); simpl in Hl; injection Hl as <- Hl;
          [congruence|]. inversion Hf. congruence.
Qed.

Lemma process_all_no_deposit {A} `{AmountOps A} (ts : list (Transaction A)) :
  Forall (fun t => is_deposit (operation t) = false) ts ->
  process_all TransactionEngine_new ts = TransactionEngine_new.
Proof.
  induction ts as [|t ts IH]; intros Hts; simpl; [reflexivity|].
  inversion Hts as [|? ? Ht Hrest]; subst.
  replace (process TransactionEngine_new t).1 with (TransactionEngine_new (A := A)).
  - apply IH, Hrest.
  - unfold process. destruct (operation t); simpl in Ht; try discriminate;
      unfold TransactionEngine_new, Engine; rewrite lookup_empty; reflexivity.
Qed.

(* ------------------------------------------------------------------ *)
(** ** Claims *)

(** C4 (idempotence of replays): a deposit or a withdrawal whose transaction
    id is already recorded in the client's account changes nothing: the
    engine, with every balance, flag and record of the account, is left as
    it was, and [process] returns the account's unchanged snapshot. *)
Theorem replay_same_id_noop {A} `{AmountOps A} (eng : Engine A) (t : Transaction A)
    (e : ClientEntry A) :
  is_deposit_or_withdrawal (operation t) = true ->
  eng !! client t = Some e -> is_Some (transactions e !! id t) ->
  process eng t = (eng, Some (as_account e)).
Proof.
  intros Hop He Hi.
  rewrite (process_existing eng t e He), (apply_entry_replay e t Hop Hi).
  unfold Engine in *. f_equal. apply insert_id. exact He.
Qed.

Lemma replay_same_id_noop_witness :
  process (run_f64 [tx 1 1 (Deposit 100%float)]) (tx 1 1 (Deposit 100%float))
  = (run_f64 [tx 1 1 (Deposit 100%float)], Some (as_account bob_after_deposit)).
Proof.
  apply (replay_same_id_noop _ _ bob_after_deposit).
  - reflexivity.
  - vm_compute. reflexivity.
  - vm_compute. eexists. reflexivity.
Defined.

(** C5 (account lookup policy of [process]): a deposit is applied to the
    client's account, created by [ClientEntry::new] when absent, and the
    snapshot is returned; any other operation on a client without an account
    returns [None] and leaves the engine unchanged (no account is created). *)
Theorem process_account_policy {A} `{AmountOps A} (eng : Engine A) (t : Transaction A) :
  match operation t with
  | Deposit _ =>
      let e := default (ClientEntry_new (client t)) (eng !! client t) in
      process eng t = (<[client t := apply_entry e t]> eng, Some (as_account (apply_entry e t)))
  | _ => eng !! client t = None -> process eng t = (eng, None)
  end.
Proof.
  unfold process. destruct (operation t); try reflexivity;
    intros Hn; rewrite Hn; reflexivity.
Qed.

Lemma process_account_policy_witness :
  process (run_f64 [tx 1 1 (Deposit 100%float)]) (tx 2 1 Dispute)
  = (run_f64 [tx 1 1 (Deposit 100%float)], None).
Proof.
  exact (process_account_policy (run_f64 [tx 1 1 (Deposit 100%float)]) (tx 2 1 Dispute)
           ltac:(vm_compute; reflexivity)).
Defined.

(** C6 (insufficient funds): on an existing account, a withdrawal with a
    fresh id whose amount exceeds the available funds ([available - amount < 0]
    in f64) leaves available, held, total and locked as they were, and
    [process] returns the unchanged snapshot. *)
Theorem withdrawal_insufficient_unchanged (eng : Engine float) (e : ClientEntry float)
    (c : ClientId) (i : TransactionId) (x : float) :
  eng !! c = Some e -> transactions e !! i = None ->
  (available e - x <? 0)%float = true ->
  let e' := apply_entry e (tx c i (Withdrawal x)) in
  process eng (tx c i (Withdrawal x)) = (<[c := e']> eng, Some (as_account e)) /\
  available e' = available e /\ held e' = held e /\ total e' = total e /\
  locked e' = locked e.
Proof.
  intros He Hi Hlt. pose proof (f64_lt0_not_ge0 _ Hlt) as Hge.
  assert (Hbal : available (apply_entry e (tx c i (Withdrawal x))) = available e /\
                 held (apply_entry e (tx c i (Withdrawal x))) = held e /\
                 total (apply_entry e (tx c i (Withdrawal x))) = total e /\
                 locked (apply_entry e (tx c i (Withdrawal x))) = locked e /\
                 ce_id (apply_entry e (tx c i (Withdrawal x))) = ce_id e).
  { unfold apply_entry. simpl. rewrite Hi. simpl. rewrite Hge. simpl. tauto. }
  destruct Hbal as (Ha & Hh & Ht & Hl & Hid).
  simpl. split; [|tauto].
  rewrite (process_existing eng (tx c i (Withdrawal x)) e He). simpl.
  unfold as_account. rewrite Ha, Hh, Ht, Hl, Hid. reflexivity.
Qed.

Lemma withdrawal_insufficient_unchanged_witness :
  let e' := apply_entry bob_after_deposit (tx 1 2 (Withdrawal 200%float)) in
  process (run_f64 [tx 1 1 (Deposit 100%float)]) (tx 1 2 (Withdrawal 200%float))
    = (<[1%N := e']> (run_f64 [tx 1 1 (Deposit 100%float)]), Some (as_account bob_after_deposit)) /\
  available e' = available bob_after_deposit /\ held e' = held bob_after_deposit /\
  total e' = total bob_after_deposit /\ locked e' = locked bob_after_deposit.
Proof.
  apply withdrawal_insufficient_unchanged.
  - vm_compute. reflexivity.
  - vm_compute. reflexivity.
  - vm_compute. reflexivity.
Defined.

(** C7 (a rejected withdrawal occupies its id): a withdrawal with a fresh id
    rejected by the funds check leaves the balances as they were but stores
    its record, not disputed; afterwards, whatever else is applied, every
    deposit or withdrawal with that id is a no-op, and a dispute of the id,
    while its record is not disputed (so right after the rejection), moves
    the rejected withdrawal's amount from available to held. *)
Theorem rejected_withdrawal_keeps_id {A} `{AmountOps A} (e : ClientEntry A)
    (c : ClientId) (i : TransactionId) (x : A) :
  transactions e !! i = None ->
  amount_ge0 (amount_sub (available e) x) = false ->
  let e1 := apply_entry e (tx c i (Withdrawal x)) in
  available e1 = available e /\ held e1 = held e /\ total e1 = total e /\
  transactions e1 !! i = Some {| te_amount := x; te_disputed := false |} /\
  (forall ts t, id t = i -> is_deposit_or_withdrawal (operation t) = true ->
     apply_entry (apply_all e1 ts) t = apply_all e1 ts) /\
  (forall ts c', let e2 := apply_all e1 ts in
     transactions e2 !! i = Some {| te_amount := x; te_disputed := false |} ->
     let e3 := apply_entry e2 (tx c' i Dispute) in
     available e3 = amount_sub (available e2) x /\ held e3 = amount_add (held e2) x /\
     total e3 = total e2 /\
     transactions e3 !! i = Some {| te_amount := x; te_disputed := true |}).
Proof.
  intros Hi Hge.
  assert (He1 : apply_entry e (tx c i (Withdrawal x)) =
    set_balances e (available e) (held e) (total e) (locked e)
      (<[i := {| te_amount := x; te_disputed := false |}]> (transactions e))).
  { unfold apply_entry. simpl. rewrite Hi. simpl. rewrite Hge. reflexivity. }
  cbv zeta. rewrite He1.
  set (e1 := set_balances e (available e) (held e) (total e) (locked e)
               (<[i := {| te_amount := x; te_disputed := false |}]> (transactions e))).
  assert (Hrec : transactions e1 !! i = Some {| te_amount := x; te_disputed := false |})
    by apply lookup_insert_eq.
  split; [done|]. split; [done|]. split; [done|]. split; [done|]. split.
  - intros ts t Hid Hop. apply apply_entry_replay; [done|]. rewrite Hid.
    edestruct (apply_all_record_amount e1 ts i x false Hrec) as [d Hd].
    rewrite Hd. eexists. reflexivity.
  - intros ts c' H2. unfold apply_entry. simpl. rewrite H2. simpl.
    rewrite lookup_insert_eq. repeat split.
Qed.

Lemma rejected_withdrawal_keeps_id_witness :
  let e1 := apply_entry bob_after_deposit (tx 1 2 (Withdrawal 200%float)) in
  available e1 = available bob_after_deposit /\ held e1 = held bob_after_deposit /\
  total e1 = total bob_after_deposit /\
  transactions e1 !! 2%N = Some {| te_amount := 200%float; te_disputed := false |} /\
  (forall ts t, id t = 2%N -> is_deposit_or_withdrawal (operation t) = true ->
     apply_entry (apply_all e1 ts) t = apply_all e1 ts) /\
  (forall ts c', let e2 := apply_all e1 ts in
     transactions e2 !! 2%N = Some {| te_amount := 200%float; te_disputed := false |} ->
     let e3 := apply_entry e2 (tx c' 2 Dispute) in
     available e3 = amount_sub (available e2) 200%float /\
     held e3 = amount_add (held e2) 200%float /\
     total e3 = total e2 /\
     transactions e3 !! 2%N = Some {| te_amount := 200%float; te_disputed := true |}).
Proof.
  apply (rejected_withdrawal_keeps_id bob_after_deposit 1%N 2%N 200%float).
  - vm_compute. reflexivity.
  - vm_compute. reflexivity.
Defined.

(** C10 (locking does not gate): on an existing account with [locked = true],
    [process] applies every kind of transaction and returns the snapshot, and
    the result is the one of the same account unlocked, with [locked] still
    true. *)
Theorem locked_not_gated {A} `{AmountOps A} (eng : Engine A) (t : Transaction A)
    (e : ClientEntry A) :
  eng !! client t = Some e -> locked e = true ->
  process eng t = (<[client t := apply_entry e t]> eng, Some (as_account (apply_entry e t))) /\
  apply_entry e t = with_locked (apply_entry (with_locked e false) t) true.
Proof.
  intros He Hl. split; [exact (process_existing eng t e He)|].
  destruct e as [cid a h tot l txs]; simpl in Hl; subst l.
  unfold apply_entry, with_locked; simpl.
  destruct (operation t); destruct (txs !! id t) as [[am d]|]; simpl;
    repeat case_match; reflexivity.
Qed.

Lemma locked_not_gated_witness :
  let eng := run_f64 [tx 1 1 (Deposit 100%float); tx 1 1 Dispute; tx 1 1 Chargeback] in
  let t := tx 1 2 (Deposit 5%float) in
  process eng t = (<[1%N := apply_entry bob_locked t]> eng,
                   Some (as_account (apply_entry bob_locked t))) /\
  apply_entry bob_locked t = with_locked (apply_entry (with_locked bob_locked false) t) true.
Proof.
  apply locked_not_gated.
  - vm_compute. reflexivity.
  - vm_compute. reflexivity.
Defined.

(** C3 (charged-back is not terminal in the code): after deposit 100, dispute
    and chargeback of tx 1, the record of tx 1 still reads disputed, so a
    second chargeback of tx 1 debits held and total again, and a resolve of
    tx 1 credits available again. *)
Theorem chargeback_not_terminal :
  balances_of [tx 1 1 (Deposit 100%float); tx 1 1 Dispute; tx 1 1 Chargeback] 1%N
    = Some (0%float, 0%float, 0%float, true) /\
  balances_of [tx 1 1 (Deposit 100%float); tx 1 1 Dispute; tx 1 1 Chargeback;
               tx 1 1 Chargeback] 1%N
    = Some (0%float, (-100)%float, (-100)%float, true) /\
  balances_of [tx 1 1 (Deposit 100%float); tx 1 1 Dispute; tx 1 1 Chargeback;
               tx 1 1 Resolve] 1%N
    = Some (100%float, (-100)%float, 0%float, true).
Proof. vm_compute. repeat split. Qed.

(** C1, as stated, fails on f64: deposit 1e20 (tx 1), withdraw 1e20 (tx 2),
    deposit 1 (tx 3), then dispute tx 1.  The snapshot returned has
    available = -1e20, held = 1e20, total = 1, and total == available + held
    is false ((-1e20) + 1e20 rounds to 0). *)
Lemma total_available_held_f64_counterexample :
  (process (run_f64 [tx 1 1 (Deposit 1e20%float); tx 1 2 (Withdrawal 1e20%float);
                     tx 1 3 (Deposit 1%float)]) (tx 1 1 Dispute)).2
  = Some {| acc_client := 1%N; acc_available := (-1e20)%float; acc_held := 1e20%float;
            acc_total := 1%float; acc_locked := false |} /\
  PrimFloat.eqb 1%float ((-1e20) + 1e20)%float = false.
Proof. vm_compute. split; reflexivity. Qed.

Lemma balanced_step (e : ClientEntry Z) (t : Transaction Z) :
  balanced e -> balanced (apply_entry e t).
Proof.
  unfold balanced. intros Hb. unfold apply_entry.
  destruct (operation t), (transactions e !! id t) as [[am d]|];
    simpl; repeat case_match; simpl; lia.
Qed.

(** C1, amended: with exact arithmetic (the [Z] instance of the same code),
    total == available + held holds for every account after any sequence of
    processed transactions, and in every snapshot [process] returns. *)
Theorem total_eq_available_plus_held_exact (ts : list (Transaction Z)) :
  all_entries balanced (process_all TransactionEngine_new ts) /\
  (forall t acc, (process (process_all TransactionEngine_new ts) t).2 = Some acc ->
     acc_total acc = (acc_available acc + acc_held acc)%Z).
Proof.
  assert (Hall : all_entries balanced (process_all TransactionEngine_new ts)).
  { apply (process_all_entries balanced (fun _ => True)).
    - intros c. reflexivity.
    - intros e t _. apply balanced_step.
    - apply Forall_forall. done.
    - apply all_entries_empty. }
  split; [exact Hall|]. intros t acc Hacc.
  assert (Hnew : forall c, balanced (ClientEntry_new c)) by (intros c; reflexivity).
  destruct (process_entries balanced (fun _ => True) Hnew
              (fun e t _ => balanced_step e t) _ t I Hall) as [_ Hsnap].
  destruct (Hsnap acc Hacc) as (e & Hb & ->). exact Hb.
Qed.

Lemma total_eq_available_plus_held_exact_witness :
  (process (process_all TransactionEngine_new [tx 1 1 (Deposit 100%Z)]) (tx 1 1 Dispute)).2
    = Some {| acc_client := 1%N; acc_available := 0%Z; acc_held := 100%Z;
              acc_total := 100%Z; acc_locked := false |} /\
  (0 + 100 = 100)%Z.
Proof.
  split; [vm_compute; reflexivity|].
  exact (proj2 (total_eq_available_plus_held_exact [tx 1 1 (Deposit 100%Z)]) (tx 1 1 Dispute)
           {| acc_client := 1%N; acc_available := 0%Z; acc_held := 100%Z;
              acc_total := 100%Z; acc_locked := false |} ltac:(vm_compute; reflexivity)).
Defined.

(** C2, as stated, fails: deposit 100 (tx 1), withdraw 100 (tx 2) and dispute
    tx 2 (Scenario E of the spec) leave available = -100. *)
Lemma available_nonneg_f64_counterexample :
  balances_of [tx 1 1 (Deposit 100%float); tx 1 2 (Withdrawal 100%float); tx 1 2 Dispute] 1%N
    = Some ((-100)%float, 100%float, 0%float, false) /\
  (0 <=? (-100))%float = false.
Proof. vm_compute. split; reflexivity. Qed.

(** C2, amended: only a withdrawal is checked against the available funds; a
    dispute subtracts the disputed amount from available unchecked.  For an
    arithmetic where 0 >= 0 and the sum of two non-negative amounts is
    non-negative, available >= 0 holds for every account after any run with
    no Dispute and no negative deposit amount, and in every snapshot of such a
    transaction processed afterwards. *)
Theorem available_nonneg_without_disputes {A} `{AmountOps A} (ts : list (Transaction A)) :
  amount_ge0 amount_zero = true ->
  (forall a x, amount_ge0 a = true -> amount_ge0 x = true -> amount_ge0 (amount_add a x) = true) ->
  Forall no_dispute_nonneg_deposit ts ->
  all_entries (fun e => amount_ge0 (available e) = true) (process_all TransactionEngine_new ts) /\
  (forall t acc, no_dispute_nonneg_deposit t ->
     (process (process_all TransactionEngine_new ts) t).2 = Some acc ->
     amount_ge0 (acc_available acc) = true).
Proof.
  intros Hz Hadd Hts.
  assert (Hnew : forall c, nonneg_available (ClientEntry_new c)).
  { intros c. split; [exact Hz|]. intros i r Hr. simpl in Hr.
    rewrite lookup_empty in Hr. discriminate. }
  assert (Hall : all_entries nonneg_available (process_all TransactionEngine_new ts)).
  { apply (process_all_entries nonneg_available no_dispute_nonneg_deposit Hnew
             (nonneg_available_step Hadd)); [exact Hts|]. apply all_entries_empty. }
  split.
  - intros c e He. exact (proj1 (Hall c e He)).
  - intros t acc Ht Hacc.
    destruct (process_entries nonneg_available no_dispute_nonneg_deposit Hnew
                (nonneg_available_step Hadd) _ t Ht Hall) as [_ Hsnap].
    destruct (Hsnap acc Hacc) as (e & [Ha _] & ->). exact Ha.
Qed.

Lemma available_nonneg_without_disputes_witness :
  all_entries (fun e : ClientEntry Z => amount_ge0 (available e) = true)
    (process_all TransactionEngine_new
       [tx 1 1 (Deposit 100%Z); tx 1 2 (Withdrawal 30%Z); tx 1 3 (Withdrawal 200%Z)]) /\
  (forall t acc, no_dispute_nonneg_deposit t ->
     (process (process_all TransactionEngine_new
                 [tx 1 1 (Deposit 100%Z); tx 1 2 (Withdrawal 30%Z); tx 1 3 (Withdrawal 200%Z)]) t).2
       = Some acc -> amount_ge0 (acc_available acc) = true).
Proof.
  apply (available_nonneg_without_disputes (A := Z)).
  - reflexivity.
  - intros a x Ha Hx. simpl in *. apply Z.leb_le. apply Z.leb_le in Ha, Hx. lia.
  - repeat constructor; simpl; try discriminate; intros y Hy; injection Hy as <-; reflexivity.
Defined.

(** C8, as stated, fails on f64: after deposit 1e20 (tx 1), withdraw 1e20
    (tx 2) and deposit 1 (tx 3), available is 1; a dispute and a resolve of
    tx 1 leave it at 0, since (1 - 1e20) + 1e20 rounds to 0. *)
Lemma dispute_resolve_f64_counterexample :
  balances_of [tx 1 1 (Deposit 1e20%float); tx 1 2 (Withdrawal 1e20%float);
               tx 1 3 (Deposit 1%float)] 1%N
    = Some (1%float, 0%float, 1%float, false) /\
  balances_of [tx 1 1 (Deposit 1e20%float); tx 1 2 (Withdrawal 1e20%float);
               tx 1 3 (Deposit 1%float); tx 1 1 Dispute; tx 1 1 Resolve] 1%N
    = Some (0%float, 0%float, 1%float, false).
Proof. vm_compute. split; reflexivity. Qed.

(** C8, amended: a dispute then a resolve of a recorded, undisputed
    transaction restores total, locked and the records exactly, and leaves
    available = (available - amount) + amount and held = (held + amount) -
    amount, which in exact arithmetic (the [Z] instance) are the prior values:
    there the account is restored entirely.  With f64 they may differ by
    rounding. *)
Theorem dispute_resolve_roundtrip :
  (forall (A : Type) (H : AmountOps A) (e : ClientEntry A) (c c' : ClientId)
          (i : TransactionId) (x : A),
     transactions e !! i = Some {| te_amount := x; te_disputed := false |} ->
     let e2 := apply_entry (apply_entry e (tx c i Dispute)) (tx c' i Resolve) in
     available e2 = amount_add (amount_sub (available e) x) x /\
     held e2 = amount_sub (amount_add (held e) x) x /\
     total e2 = total e /\ locked e2 = locked e /\ transactions e2 = transactions e) /\
  (forall (e : ClientEntry Z) (c c' : ClientId) (i : TransactionId) (x : Z),
     transactions e !! i = Some {| te_amount := x; te_disputed := false |} ->
     apply_entry (apply_entry e (tx c i Dispute)) (tx c' i Resolve) = e).
Proof.
  split.
  - intros A H e c c' i x Hi. unfold apply_entry. simpl. rewrite Hi. simpl.
    rewrite lookup_insert_eq. simpl. repeat split.
    rewrite insert_insert_eq. apply insert_id. exact Hi.
  - intros e c c' i x Hi. unfold apply_entry. simpl. rewrite Hi. simpl.
    rewrite lookup_insert_eq. simpl. rewrite insert_insert_eq, (insert_id _ _ _ Hi).
    destruct e as [cid a h t l txs]. unfold set_balances. simpl. f_equal; lia.
Qed.

Lemma dispute_resolve_roundtrip_witness :
  (let e2 := apply_entry (apply_entry bob_after_deposit (tx 1 1 Dispute)) (tx 1 1 Resolve) in
   available e2 = amount_add (amount_sub (available bob_after_deposit) 100%float) 100%float /\
   held e2 = amount_sub (amount_add (held bob_after_deposit) 100%float) 100%float /\
   total e2 = total bob_after_deposit /\ locked e2 = locked bob_after_deposit /\
   transactions e2 = transactions bob_after_deposit) /\
  apply_entry (apply_entry Z_after_deposit (tx 1 1 Dispute)) (tx 1 1 Resolve) = Z_after_deposit.
Proof.
  split.
  - apply (proj1 dispute_resolve_roundtrip). vm_compute. reflexivity.
  - apply (proj2 dispute_resolve_roundtrip Z_after_deposit 1%N 1%N 1%N 100%Z). vm_compute. reflexivity.
Defined.

(** C9 (the run stops at the first failing record): the loop of [main]
    applies, in order, exactly the transactions before the first read or
    conversion error and ends with that error; without an error it applies
    them all.  [main] returns the first error of the records when there is
    one, fails whenever any record fails, and succeeds only when every record
    converts. *)
Theorem main_stops_at_first_error :
  (forall eng ts e rest,
     main_loop eng (map Ok ts ++ Err e :: rest) = (process_all eng ts, Err e)) /\
  (forall eng ts, main_loop eng (map Ok ts) = (process_all eng ts, Ok tt)) /\
  (forall (Path : Type) (p : Path) open_csv write records,
     open_csv p = Ok records ->
     (forall ts e rest, read records = map Ok ts ++ Err e :: rest ->
        main (Some p) open_csv write = Err e) /\
     (forall e, In (Err e) (read records) -> exists e', main (Some p) open_csv write = Err e') /\
     (main (Some p) open_csv write = Ok tt -> exists ts, read records = map Ok ts)).
Proof.
  assert (Herr : forall eng ts e rest,
             main_loop eng (map Ok ts ++ Err e :: rest) = (process_all eng ts, Err e)).
  { intros eng ts e rest. rewrite main_loop_prefix. reflexivity. }
  assert (Hok : forall eng ts, main_loop eng (map Ok ts) = (process_all eng ts, Ok tt)).
  { intros eng ts. rewrite <- (app_nil_r (map Ok ts)), main_loop_prefix. reflexivity. }
  split; [exact Herr|]. split; [exact Hok|].
  intros Path p open_csv write records Hopen.
  assert (Hfirst : forall ts e rest, read records = map Ok ts ++ Err e :: rest ->
                   main (Some p) open_csv write = Err e).
  { intros ts e rest Hr. unfold main. rewrite Hopen, Hr, Herr. reflexivity. }
  split; [exact Hfirst|]. split.
  - intros e Hin. destruct (results_first_error (read records)) as [[ts Hr]|(ts & e' & rest & Hr)].
    + rewrite Hr in Hin. apply in_map_iff in Hin as (t & Ht & _). discriminate.
    + exists e'. exact (Hfirst _ _ _ Hr).
  - intros Hmain. destruct (results_first_error (read records)) as [Hall|(ts & e' & rest & Hr)].
    + exact Hall.
    + rewrite (Hfirst _ _ _ Hr) in Hmain. discriminate.
Qed.

Lemma main_stops_at_first_error_witness :
  let records := [Ok {| r_type := TDeposit; r_client := 1; r_tx := 1; r_amount := Some 10%float |};
                  Ok {| r_type := TWithdrawal; r_client := 1; r_tx := 2; r_amount := None |};
                  Ok {| r_type := TDeposit; r_client := 1; r_tx := 3; r_amount := Some 5%float |}] in
  main (Some tt) (fun _ => Ok records) (fun _ => Ok tt) = Err (MissingAmount false).
Proof.
  intros records.
  apply (proj2 (proj2 main_stops_at_first_error) unit tt (fun _ => Ok records)
           (fun _ => Ok tt) records eq_refl)
    with (ts := [tx 1 1 (Deposit 10%float)])
         (rest := [Ok (tx 1 3 (Deposit 5%float))]).
  vm_compute. reflexivity.
Defined.

(* ------------------------------------------------------------------ *)
(** ** Further properties of the engine *)

(** [process] touches only the account of the transaction's client: every
    other client's entry (balances, flag and records) is left as it was. *)
Theorem process_isolates_clients {A} `{AmountOps A} (eng : Engine A) (t : Transaction A)
    (c : ClientId) :
  client t <> c -> (process eng t).1 !! c = eng !! c.
Proof. apply process_lookup_ne. Qed.

Lemma process_isolates_clients_witness :
  (process (run_f64 [tx 1 1 (Deposit 100%float)]) (tx 2 1 (Deposit 5%float))).1 !! 1%N
  = run_f64 [tx 1 1 (Deposit 100%float)] !! 1%N.
Proof. apply process_isolates_clients. simpl. discriminate. Defined.

(** Transactions of different clients commute: processing them in either
    order gives the same engine, and the snapshot returned for the second is
    the one it gets when processed alone. *)
Theorem process_commutes_across_clients {A} `{AmountOps A} (eng : Engine A)
    (t1 t2 : Transaction A) :
  client t1 <> client t2 ->
  (process (process eng t1).1 t2).1 = (process (process eng t2).1 t1).1 /\
  (process (process eng t1).1 t2).2 = (process eng t2).2.
Proof.
  intros Hne. split.
  - rewrite !process_fst. unfold Engine in *. apply map_eq. intros j.
    rewrite !lookup_partial_alter.
    repeat case_decide; subst; first [congruence | reflexivity].
  - apply process_snd_same. apply process_lookup_ne. exact Hne.
Qed.

Lemma process_commutes_across_clients_witness :
  (process (process TransactionEngine_new (tx 1 1 (Deposit 100%float))).1
           (tx 2 1 (Deposit 5%float))).1
  = (process (process TransactionEngine_new (tx 2 1 (Deposit 5%float))).1
             (tx 1 1 (Deposit 100%float))).1 /\
  (process (process TransactionEngine_new (tx 1 1 (Deposit 100%float))).1
           (tx 2 1 (Deposit 5%float))).2
  = (process TransactionEngine_new (tx 2 1 (Deposit 5%float))).2.
Proof. apply process_commutes_across_clients. simpl. discriminate. Defined.

(** Starting from an empty engine, a client has an account after a run
    exactly when some transaction of the run is a deposit for that client. *)
Theorem accounts_exactly_deposit_clients {A} `{AmountOps A} (ts : list (Transaction A))
    (c : ClientId) :
  is_Some (process_all TransactionEngine_new ts !! c) <->
  exists t, t ∈ ts /\ client t = c /\ is_deposit (operation t) = true.
Proof.
  rewrite process_all_dom. unfold TransactionEngine_new, Engine.
  rewrite lookup_empty. split; [intros [[? ?]|?]; [discriminate|done]|]. intros ?. right. done.
Qed.

(** Every account of a run is stored under its own client id, and the
    snapshot returned by [process] is the account of the transaction's
    client. *)
Theorem accounts_keyed_by_client {A} `{AmountOps A} (ts : list (Transaction A)) :
  (forall c e, process_all TransactionEngine_new ts !! c = Some e -> ce_id e = c) /\
  (forall t acc, (process (process_all TransactionEngine_new ts) t).2 = Some acc ->
     acc_client acc = client t).
Proof.
  pose proof (keys_match_process_all TransactionEngine_new ts keys_match_empty) as Hk.
  split; [exact Hk|]. intros t acc. unfold process.
  destruct (operation t), (process_all TransactionEngine_new ts !! client t) as [e|] eqn:He;
    simpl; intros Hs; try discriminate; injection Hs as <-; simpl;
    rewrite apply_entry_ce_id; first [exact (Hk _ _ He) | reflexivity].
Qed.

Lemma accounts_keyed_by_client_witness :
  (forall c e, run_f64 [tx 1 1 (Deposit 100%float)] !! c = Some e -> ce_id e = c) /\
  (forall t acc, (process (run_f64 [tx 1 1 (Deposit 100%float)]) t).2 = Some acc ->
     acc_client acc = client t).
Proof. exact (accounts_keyed_by_client [tx 1 1 (Deposit 100%float)]). Defined.

(** [TransactionEngine::accounts] after a run lists the snapshot of every
    account, one per account, with no client twice. *)
Theorem accounts_one_row_per_client {A} `{AmountOps A} (ts : list (Transaction A)) :
  let eng := process_all TransactionEngine_new ts in
  (forall c e, eng !! c = Some e -> as_account e ∈ accounts eng) /\
  length (accounts eng) = size eng /\
  NoDup (acc_client <$> accounts eng).
Proof.
  intros eng.
  pose proof (keys_match_process_all TransactionEngine_new ts keys_match_empty) as Hk.
  unfold accounts. split; [|split].
  - intros c e He. apply list_elem_of_fmap_2. apply list_elem_of_fmap.
    exists (c, e). split; [reflexivity|]. unfold Engine in *.
    apply (proj2 (elem_of_map_to_list _ _ _)). exact He.
  - rewrite length_fmap, length_fmap.
    exact (length_map_to_list (M := gmap ClientId) (A := ClientEntry A) eng).
  - rewrite accounts_clients;
      [exact (NoDup_fst_map_to_list (M := gmap ClientId) (A := ClientEntry A) eng)|].
    apply Forall_forall. intros [k e] Hke. unfold Engine in *.
    apply (proj1 (elem_of_map_to_list _ _ _)) in Hke.
    exact (Hk _ _ Hke).
Qed.

(** Once an account is locked, it stays: after any further transactions it
    still exists and is still locked. *)
Theorem locked_account_stays_locked {A} `{AmountOps A} (ts : list (Transaction A))
    (eng : Engine A) (c : ClientId) (e : ClientEntry A) :
  eng !! c = Some e -> locked e = true ->
  exists e', process_all eng ts !! c = Some e' /\ locked e' = true.
Proof.
  revert eng e. induction ts as [|t ts IH]; intros eng e He Hl; simpl; [eauto|].
  destruct (decide (client t = c)) as [<-|Hne].
  - apply (IH _ (apply_entry e t)); [|apply apply_entry_locked, Hl].
    rewrite (process_existing eng t e He). simpl. unfold Engine in *.
    apply lookup_insert_eq.
  - apply (IH _ e); [|exact Hl]. rewrite process_lookup_ne by exact Hne. exact He.
Qed.

Lemma locked_account_stays_locked_witness :
  exists e', process_all (run_f64 [tx 1 1 (Deposit 100%float); tx 1 1 Dispute; tx 1 1 Chargeback])
               [tx 1 2 (Deposit 5%float); tx 1 1 Resolve] !! 1%N = Some e' /\ locked e' = true.
Proof.
  apply (locked_account_stays_locked _ _ 1%N bob_locked).
  - vm_compute. reflexivity.
  - vm_compute. reflexivity.
Defined.

(** A withdrawal never makes available negative: it either leaves available
    as it was (duplicate id, or the funds check fails) or the new available
    passes the check [available >= 0.0]. *)
Theorem withdrawal_never_overdraws {A} `{AmountOps A} (e : ClientEntry A) (c : ClientId)
    (i : TransactionId) (x : A) :
  let e' := apply_entry e (tx c i (Withdrawal x)) in
  available e' = available e \/ amount_ge0 (available e') = true.
Proof.
  unfold apply_entry. simpl. destruct (transactions e !! i); [left; reflexivity|].
  destruct (amount_ge0 (amount_sub (available e) x)) eqn:Hg; simpl; auto.
Qed.

(** The transitions the code does not take are no-ops: a dispute of an
    unknown or already disputed record, and a resolve or a chargeback of an
    unknown or undisputed record, leave the account (balances, flag and
    records) unchanged. *)
Theorem unlisted_transitions_noop {A} `{AmountOps A} :
  (forall (e : ClientEntry A) c i,
     (forall r, transactions e !! i = Some r -> te_disputed r = true) ->
     apply_entry e (tx c i Dispute) = e) /\
  (forall (e : ClientEntry A) c i op, op = Resolve \/ op = Chargeback ->
     (forall r, transactions e !! i = Some r -> te_disputed r = false) ->
     apply_entry e (tx c i op) = e).
Proof.
  split.
  - intros e c i Hr. unfold apply_entry. simpl.
    destruct (transactions e !! i) as [r|] eqn:Hi; [|reflexivity].
    rewrite (Hr r eq_refl). reflexivity.
  - intros e c i op Hop Hr. unfold apply_entry. simpl.
    destruct (transactions e !! i) as [r|] eqn:Hi;
      [rewrite (Hr r eq_refl)|]; destruct Hop as [->| ->]; reflexivity.
Qed.

Lemma unlisted_transitions_noop_witness :
  apply_entry bob_locked (tx 1 1 Dispute) = bob_locked /\
  apply_entry bob_after_deposit (tx 1 1 Chargeback) = bob_after_deposit.
Proof.
  split.
  - apply (proj1 unlisted_transitions_noop). intros r Hr. vm_compute in Hr.
    injection Hr as <-. reflexivity.
  - apply (proj2 unlisted_transitions_noop); [right; reflexivity|].
    intros r Hr. vm_compute in Hr. injection Hr as <-. reflexivity.
Defined.

(** Which fields each operation can change: deposits and withdrawals never
    change held or locked; disputes and resolves never change total or
    locked; a chargeback never changes available or the records. *)
Theorem operation_frame {A} `{AmountOps A} (e : ClientEntry A) (t : Transaction A) :
  let e' := apply_entry e t in
  match operation t with
  | Deposit _ | Withdrawal _ => held e' = held e /\ locked e' = locked e
  | Dispute | Resolve => total e' = total e /\ locked e' = locked e
  | Chargeback => available e' = available e /\ transactions e' = transactions e
  end.
Proof.
  unfold apply_entry. destruct (operation t), (transactions e !! id t);
    repeat case_match; simpl; auto.
Qed.

(** With exact arithmetic, a dispute followed by a chargeback of a recorded,
    undisputed transaction of amount x takes x off available and total,
    leaves held as it was, locks the account and leaves the record marked
    disputed. *)
Theorem dispute_chargeback_exact (e : ClientEntry Z) (c c' : ClientId)
    (i : TransactionId) (x : Z) :
  transactions e !! i = Some {| te_amount := x; te_disputed := false |} ->
  let e2 := apply_entry (apply_entry e (tx c i Dispute)) (tx c' i Chargeback) in
  available e2 = (available e - x)%Z /\ held e2 = held e /\ total e2 = (total e - x)%Z /\
  locked e2 = true /\
  transactions e2 !! i = Some {| te_amount := x; te_disputed := true |}.
Proof.
  intros Hi. unfold apply_entry. simpl. rewrite Hi. simpl.
  rewrite lookup_insert_eq. simpl. repeat split; try lia. apply lookup_insert_eq.
Qed.

Lemma dispute_chargeback_exact_witness :
  let e2 := apply_entry (apply_entry Z_after_deposit (tx 1 1 Dispute)) (tx 1 1 Chargeback) in
  available e2 = (available Z_after_deposit - 100)%Z /\ held e2 = held Z_after_deposit /\
  total e2 = (total Z_after_deposit - 100)%Z /\ locked e2 = true /\
  transactions e2 !! 1%N = Some {| te_amount := 100%Z; te_disputed := true |}.
Proof. apply dispute_chargeback_exact. vm_compute. reflexivity. Defined.

(* ------------------------------------------------------------------ *)
(** ** Further properties of the input and of [main] *)

(** [try_into] fails exactly on a deposit or a withdrawal record without an
    amount, with the error naming which of the two it was. *)
Theorem try_into_err_iff (r : CsvTransactionRecord) (err : Error) :
  try_into r = Err err <->
  r_amount r = None /\
  ((r_type r = TDeposit /\ err = MissingAmount true) \/
   (r_type r = TWithdrawal /\ err = MissingAmount false)).
Proof. destruct r as [[] c i [a|]]; unfold try_into; simpl; naive_solver. Qed.

(** A converted record keeps its client and transaction id; a deposit or a
    withdrawal carries the record's amount, and a dispute, resolve or
    chargeback ignores any amount the record has. *)
Theorem try_into_ok_iff (r : CsvTransactionRecord) (t : Transaction float) :
  try_into r = Ok t <->
  client t = r_client r /\ id t = r_tx r /\
  match r_type r with
  | TDeposit => exists a, r_amount r = Some a /\ operation t = Deposit a
  | TWithdrawal => exists a, r_amount r = Some a /\ operation t = Withdrawal a
  | TDispute => operation t = Dispute
  | TResolve => operation t = Resolve
  | TChargeback => operation t = Chargeback
  end.
Proof.
  destruct r as [[] c i [a|]], t as [c' i' op]; unfold try_into; simpl;
    split; intros Hx; try discriminate;
    try (injection Hx as <- <- <-; naive_solver);
    try (destruct Hx as (-> & -> & Hop); try destruct Hop as (? & [= <-] & ->);
         try rewrite Hop; try reflexivity);
    naive_solver.
Qed.

(** Writing the accounts succeeds exactly when every write succeeds; it fails
    with the error of the first failing write, the accounts before it being
    written. *)
Theorem write_all_result (write : Account float -> result unit) (accs : list (Account float)) :
  (write_all write accs = Ok tt <-> Forall (fun a => write a = Ok tt) accs) /\
  (forall e, write_all write accs = Err e <->
     exists pre a post, accs = pre ++ a :: post /\
       Forall (fun a => write a = Ok tt) pre /\ write a = Err e).
Proof. split; [apply write_all_ok | intros e; apply write_all_err]. Qed.

(** [main] with a file argument succeeds exactly when the file opens, every
    record converts, and the write of every account of the engine obtained
    by processing all converted transactions in order succeeds. *)
Theorem main_ok_iff {Path : Type} (p : Path)
    (open_csv : Path -> result (list (result CsvTransactionRecord)))
    (write : Account float -> result unit) :
  main (Some p) open_csv write = Ok tt <->
  exists records ts, open_csv p = Ok records /\ read records = map Ok ts /\
    Forall (fun a => write a = Ok tt) (accounts (run_f64 ts)).
Proof.
  unfold main. destruct (open_csv p) as [records|e] eqn:Ho.
  - destruct (results_first_error (read records)) as [[ts Hr]|(ts & e & rest & Hr)];
      rewrite Hr.
    + rewrite main_loop_all_ok, write_all_ok. unfold run_f64. split.
      * intros Hf. exists records, ts. done.
      * intros (records' & ts' & [= <-] & Hr' & Hf). rewrite Hr in Hr'.
        apply map_Ok_inj in Hr' as <-. exact Hf.
    + rewrite main_loop_prefix. simpl. split; [discriminate|].
      intros (records' & ts' & [= <-] & Hr' & _). rewrite Hr in Hr'.
      exfalso. apply (map_Ok_no_Err ts' e). rewrite <- Hr'. apply in_or_app. right. left. reflexivity.
  - split; [discriminate|]. intros (? & ? & ? & _). discriminate.
Qed.

(** A run with no deposit creates no account: the engine stays empty and
    [accounts] lists no row. *)
Theorem no_deposit_no_rows {A} `{AmountOps A} (ts : list (Transaction A)) :
  Forall (fun t => is_deposit (operation t) = false) ts ->
  process_all TransactionEngine_new ts = TransactionEngine_new /\
  accounts (process_all TransactionEngine_new ts) = [].
Proof.
  intros Hts. rewrite process_all_no_deposit by exact Hts. split; [reflexivity|].
  unfold accounts, TransactionEngine_new, Engine. rewrite map_to_list_empty. reflexivity.
Qed.

Lemma no_deposit_no_rows_witness :
  process_all TransactionEngine_new [tx 1 1 (Withdrawal 5%float); tx 2 1 Dispute]
    = TransactionEngine_new /\
  accounts (process_all TransactionEngine_new [tx 1 1 (Withdrawal 5%float); tx 2 1 Dispute])
    = [].
Proof. apply no_deposit_no_rows. repeat constructor. Defined.
